(** * Teapots and turntables (chap25): the two-phase simulation

    A shallow embedding of the Python cells of [notebooks/chap25.ipynb]:
    [make_system], [slope_func], [event_func1], [event_func2],
    [run_two_phases] and [error_func1], together with the library
    operations their values go through: the records [State], [Params],
    [System] and [TimeFrame] of [modsim], and pandas' [combine_first].

    The scalars of the notebook are Python numbers tagged by the units
    library; the integrator is [modsim.run_ode_solver].  Both are
    collaborators of the notebook, not cells of it, so the development is
    parametric in them: a [Number] structure gives the arithmetic, and the
    integrator is a variable of the section.  Unit tags are carried by
    the scalars themselves: [0*radian] is the product of the literal and
    the constant [radian], and a product or difference of scalars is
    whatever the structure's operation answers. *)

From Stdlib Require Import List Bool Sorted QArith Qcanon Lia.
Import ListNotations.

Set Implicit Arguments.

(** ** Scalars *)

(** The values the cells compute with.  [lit] is a numeric literal of the
    source ([0], [1], [2], [1.5]); the arithmetic is Python's [+ - * / **];
    [nltb] is [<] on index labels.  [radian], [s] and [N] are the unit
    constants of cell 4. *)
Class Number : Type := {
  num : Type;
  lit : Q -> num;
  nadd : num -> num -> num;
  nsub : num -> num -> num;
  nmul : num -> num -> num;
  ndiv : num -> num -> num;
  npow : num -> nat -> num;
  nltb : num -> num -> bool;
  neqb : num -> num -> bool;
  radian : num;
  s : num;
  N : num
}.

(** What the proofs about index order use: [neqb] decides equality and
    [nltb] is a strict total order. *)
Class NumberLaws (Num : Number) : Prop := {
  neqb_eq : forall a b : num, neqb a b = true <-> a = b;
  nltb_irrefl : forall a : num, nltb a a = false;
  nltb_trans : forall a b c : num,
      nltb a b = true -> nltb b c = true -> nltb a c = true;
  nltb_total : forall a b : num,
      nltb a b = false -> nltb b a = false -> a = b
}.

Declare Scope num_scope.
Delimit Scope num_scope with num.
Infix "+" := nadd : num_scope.
Infix "-" := nsub : num_scope.
Infix "*" := nmul : num_scope.
Infix "/" := ndiv : num_scope.
Infix "<?" := nltb : num_scope.
Infix "=?" := neqb : num_scope.
Notation "x ** n" := (npow x n) (at level 30, right associativity) : num_scope.

(** ** Exceptions *)

(** The only exception the cells themselves can meet: positional access
    [index[-1]] / [iloc[-1]] into an empty frame. *)
Inductive exn : Type :=
| IndexError.

Inductive result (A : Type) : Type :=
| Return (a : A)
| Raise (e : exn).

Arguments Return {A} a.
Arguments Raise {A} e.

Definition bind {A B : Type} (m : result A) (k : A -> result B) : result B :=
  match m with
  | Return a => k a
  | Raise e => Raise e
  end.

Notation "x <- m ;; k" := (bind m (fun x => k))
  (at level 61, m at next level, right associativity).

Definition returns {A : Type} (m : result A) : bool :=
  match m with
  | Return _ => true
  | Raise _ => false
  end.

(** ** Records of the notebook *)

Module State.
Record t {Num : Number} : Type := mk { theta : num; omega : num }.
Arguments mk {Num} theta omega.
End State.

Module Params.
Record t {Num : Number} : Type := mk {
  radius_disk : num;
  mass_disk : num;
  radius_pot : num;
  mass_pot : num;
  force : num;
  torque_friction : num;
  theta_end : num;
  t_end : num
}.
Arguments mk {Num}.
End Params.

(** Modelled from the spec: the [System] record of [modsim] (section 3:
    a configuration record, an initial state, the total moment of inertia
    and optionally a start time).  Its entries are read as
    [system.force], [system.I], ...; [t_0] is absent until phase 2 sets
    it. *)
Module System.
Record t {Num : Number} : Type := mk {
  params : Params.t;
  init : State.t;
  I : num;
  t_0 : option num
}.
Arguments mk {Num} params init I t_0.
End System.

(** Modelled from the spec: the integrator's report of why it stopped
    (section 4.3: horizon reached, event fired, or failure). *)
Inductive status : Type :=
| ReachedEnd
| EventOccurred
| IntegrationFailed.

Record Details : Type := { details_status : status }.

Section Notebook.

Context {Num : Number}.
Local Open Scope num_scope.

(** *** Time frames *)

(** Modelled from the spec: the [TimeFrame] of [modsim] (section 3: an
    ordered, time-indexed sequence of state vectors), rows in index
    order. *)
Definition TimeFrame : Type := list (num * State.t).

Definition index (tf : TimeFrame) : list num := map fst tf.

(** [tf.loc[t]]: the row labelled [t], if any. *)
Fixpoint loc (t : num) (tf : TimeFrame) : option State.t :=
  match tf with
  | [] => None
  | (t', row) :: tf' => if t =? t' then Some row else loc t tf'
  end.

(** Modelled from the spec: [tf.last_label()], the time of the last
    sample, [tf.index[-1]]; there is none in an empty frame. *)
Fixpoint last_label (tf : TimeFrame) : result num :=
  match tf with
  | [] => Raise IndexError
  | [(t, _)] => Return t
  | _ :: tf' => last_label tf'
  end.

(** Modelled from the spec: [tf.last_row()], the last sample,
    [tf.iloc[-1]]. *)
Fixpoint last_row (tf : TimeFrame) : result State.t :=
  match tf with
  | [] => Raise IndexError
  | [(_, row)] => Return row
  | _ :: tf' => last_row tf'
  end.

(** The sorted union of two indexes, built by ordered insertion. *)
Fixpoint insert_label (t : num) (idx : list num) : list num :=
  match idx with
  | [] => [t]
  | u :: idx' =>
      if t <? u then t :: u :: idx'
      else if u <? t then u :: insert_label t idx'
      else u :: idx'
  end.

Definition union_index (idx1 idx2 : list num) : list num :=
  fold_right insert_label [] (idx1 ++ idx2).

(** [where(isna(x), y, x)]: the caller's cell unless it is missing. *)
Definition combiner (x y : option State.t) : option State.t :=
  match x with
  | Some row => Some row
  | None => y
  end.

Fixpoint combine_rows (idx : list num) (self other : TimeFrame) : TimeFrame :=
  match idx with
  | [] => []
  | t :: idx' =>
      match combiner (loc t self) (loc t other) with
      | Some row => (t, row) :: combine_rows idx' self other
      | None => combine_rows idx' self other
      end
  end.

(** pandas' [self.combine_first(other)]: both frames are aligned on the
    sorted union of their indexes, and every cell is [self]'s unless
    [self] has none there, in which case it is [other]'s.  The frames of
    the notebook hold a number in every cell of a row they have, so the
    choice is made row by row. *)
Definition combine_first (self other : TimeFrame) : TimeFrame :=
  combine_rows (union_index (index self) (index other)) self other.

(** Modelled from the spec: [TimeFrame(results)] wraps the frame it is
    given. *)
Definition TimeFrame_ (results : TimeFrame) : TimeFrame := results.

(** Index labels strictly increasing. *)
Definition before (a b : num) : Prop := (a <? b) = true.

Definition time_ordered (tf : TimeFrame) : Prop :=
  StronglySorted before (index tf).

(** The same, as a check that runs. *)
Fixpoint time_orderedb (idx : list num) : bool :=
  match idx with
  | [] => true
  | t :: idx' =>
      match idx' with
      | [] => true
      | u :: _ => (t <? u) && time_orderedb idx'
      end
  end.

(** *** Cell 8 *)

Definition make_system (params : Params.t) : System.t :=
  let mass_disk := Params.mass_disk params in
  let mass_pot := Params.mass_pot params in
  let radius_disk := Params.radius_disk params in
  let radius_pot := Params.radius_pot params in
  let init := State.mk (lit 0 * radian) (lit 0 * radian / s) in
  let I_disk := mass_disk * radius_disk ** 2 / lit 2 in
  let I_pot := mass_pot * radius_pot ** 2 in
  System.mk params init (I_disk + I_pot) None.

(** *** Cell 12 *)

Definition slope_func (state : State.t) (t : num) (system : System.t)
  : num * num :=
  let theta := State.theta state in
  let omega := State.omega state in
  let radius_disk := Params.radius_disk (System.params system) in
  let force := Params.force (System.params system) in
  let torque_friction := Params.torque_friction (System.params system) in
  let I := System.I system in
  let torque := radius_disk * force - torque_friction in
  let alpha := torque / I in
  (omega, alpha).

(** *** Cells 16 and 29 *)

Definition event_func1 (state : State.t) (t : num) (system : System.t) : num :=
  let theta := State.theta state in
  theta - Params.theta_end (System.params system).

Definition event_func2 (state : State.t) (t : num) (system : System.t) : num :=
  let omega := State.omega state in
  omega.

(** *** The integrator *)

Definition slope_t : Type := State.t -> num -> System.t -> num * num.
Definition event_t : Type := State.t -> num -> System.t -> num.
Definition solver_t : Type :=
  System.t -> slope_t -> event_t -> TimeFrame * Details.

(** Modelled from the spec: [Params(params, force=...,
    torque_friction=...)], a copy of the record with the two entries
    overridden (section 3, derivation). *)
Definition Params_with (params : Params.t) (force torque_friction : num)
  : Params.t :=
  Params.mk (Params.radius_disk params) (Params.mass_disk params)
            (Params.radius_pot params) (Params.mass_pot params)
            force torque_friction
            (Params.theta_end params) (Params.t_end params).

(** Modelled from the spec: [System(system, t_0=..., init=...,
    force=...)], a copy of the system with the three entries overridden;
    [I] and the other configuration entries are copied. *)
Definition System_with (system : System.t) (t_0 : num) (init : State.t)
           (force : num) : System.t :=
  let p := System.params system in
  System.mk
    (Params.mk (Params.radius_disk p) (Params.mass_disk p)
               (Params.radius_pot p) (Params.mass_pot p)
               force (Params.torque_friction p)
               (Params.theta_end p) (Params.t_end p))
    init (System.I system) (Some t_0).

(** *** Predicates on the records *)

(** The state [make_system] starts from. *)
Definition at_rest : State.t :=
  State.mk (lit 0 * radian) (lit 0 * radian / s).

(** The moment of inertia a system's own mass and radius entries
    determine. *)
Definition inertia_of (system : System.t) : num :=
  let p := System.params system in
  Params.mass_disk p * Params.radius_disk p ** 2 / lit 2
  + Params.mass_pot p * Params.radius_pot p ** 2.

Definition inertia_ok (system : System.t) : Prop :=
  System.I system = inertia_of system.

(** Two configurations that agree on every entry but [force] and
    [torque_friction]. *)
Definition same_base (p q : Params.t) : Prop :=
  Params.radius_disk p = Params.radius_disk q /\
  Params.mass_disk p = Params.mass_disk q /\
  Params.radius_pot p = Params.radius_pot q /\
  Params.mass_pot p = Params.mass_pot q /\
  Params.theta_end p = Params.theta_end q /\
  Params.t_end p = Params.t_end q.

Section Driver.

Variable run_ode_solver : solver_t.

(** *** Cell 44 *)

(** The local variables of [run_two_phases] at its [return]. *)
Record Locals : Type := {
  l_params : Params.t;
  l_system1 : System.t;
  l_results1 : TimeFrame;
  l_details1 : Details;
  l_t_0 : num;
  l_init2 : State.t;
  l_system2 : System.t;
  l_results2 : TimeFrame;
  l_details2 : Details;
  l_results : TimeFrame
}.

Definition run_two_phases_body (force torque_friction : num)
           (params : Params.t) : result Locals :=
  (* put the specified parameters into the Params object *)
  let params := Params_with params force torque_friction in
  (* run phase 1 *)
  let system1 := make_system params in
  let '(results1, details1) :=
    run_ode_solver system1 slope_func event_func1 in
  (* get the final state from phase 1 *)
  label <- last_label results1 ;;
  let t_0 := label * s in
  init2 <- last_row results1 ;;
  (* run phase 2 *)
  let system2 := System_with system1 t_0 init2 (lit 0 * N) in
  let '(results2, details2) :=
    run_ode_solver system2 slope_func event_func2 in
  (* combine and return the results *)
  let results := combine_first results1 results2 in
  Return {| l_params := params; l_system1 := system1;
            l_results1 := results1; l_details1 := details1;
            l_t_0 := t_0; l_init2 := init2; l_system2 := system2;
            l_results2 := results2; l_details2 := details2;
            l_results := results |}.

Definition run_two_phases (force torque_friction : num)
           (params : Params.t) : result TimeFrame :=
  l <- run_two_phases_body force torque_friction params ;;
  Return (TimeFrame_ (l_results l)).

(** *** Cell 50 *)

(** [error_func1] prints one line and returns the offset; the printed
    pair is returned next to the value. *)
Definition error_func1 (torque_friction : num) (params : Params.t)
  : result (num * list (num * num)) :=
  let force := lit 1 * N in
  results <- run_two_phases force torque_friction params ;;
  row <- last_row results ;;
  let theta_final := State.theta row in
  let printed := [(torque_friction, theta_final)] in
  Return (theta_final - lit 1.5 * radian, printed).

End Driver.

End Notebook.

Arguments Locals {Num}.

(** ** Integrators to run the cells with

    Modelled from the spec: stand-ins for [modsim.run_ode_solver] with
    the interface of section 4.3, used to run the cells on concrete
    inputs. *)

Section Integrators.

Context {Num : Number}.
Local Open Scope num_scope.

(** A sign change of the event function between two steps. *)
Definition crossed (g g' : num) : bool :=
  ((g <? lit 0) && negb (g' <? lit 0))
  || ((lit 0 <? g) && negb (lit 0 <? g')).

(** Fixed-step explicit Euler from [(t, y)]: it stops at the first step
    after which the event function has changed sign, or when [t] has
    reached [t_end]. *)
Fixpoint euler_steps (fuel : nat) (h : num) (slope : slope_t)
         (event : event_t) (system : System.t) (t : num) (y : State.t)
  : TimeFrame * status :=
  match fuel with
  | O => ([(t, y)], IntegrationFailed)
  | S fuel' =>
      if t <? Params.t_end (System.params system) then
        let '(dtheta, domega) := slope y t system in
        let t' := t + h in
        let y' := State.mk (State.theta y + h * dtheta)
                           (State.omega y + h * domega) in
        if crossed (event y t system) (event y' t' system)
        then ([(t, y); (t', y')], EventOccurred)
        else
          let '(rows, st) := euler_steps fuel' h slope event system t' y' in
          ((t, y) :: rows, st)
      else ([(t, y)], ReachedEnd)
  end.

(** An integrator with the interface of [run_ode_solver]: the trajectory
    starts at [system.t_0] (0 when absent) in state [system.init]. *)
Definition euler (fuel : nat) (h : num) : solver_t :=
  fun system slope event =>
    let t_0 := match System.t_0 system with
               | Some t => t
               | None => lit 0
               end in
    let '(rows, st) :=
      euler_steps fuel h slope event system t_0 (System.init system) in
    (rows, {| details_status := st |}).


(** The same integrator with its report replaced. *)
Definition with_status (st : status) (solver : solver_t) : solver_t :=
  fun system slope event =>
    (fst (solver system slope event), {| details_status := st |}).

End Integrators.

(** ** Exact rational scalars *)

Definition Qc_ltb (a b : Qc) : bool :=
  match (a ?= b)%Qc with
  | Lt => true
  | _ => false
  end.

#[export] Instance Qc_Number : Number := {|
  num := Qc;
  lit := Q2Qc;
  nadd := Qcplus;
  nsub := Qcminus;
  nmul := Qcmult;
  ndiv := Qcdiv;
  npow := Qcpower;
  nltb := Qc_ltb;
  neqb := Qc_eq_bool;
  radian := Q2Qc 1;
  s := Q2Qc 1;
  N := Q2Qc 1
|}.

(** Cell 6, in magnitudes. *)
Definition params : @Params.t Qc_Number :=
  Params.mk (Q2Qc 0.5) (Q2Qc 7) (Q2Qc 0.4) (Q2Qc 0.3)
            (Q2Qc 1) (Q2Qc 0.2) (Q2Qc 0.5) (Q2Qc 20).

(** Cell 10. *)
Definition system1 : @System.t Qc_Number := make_system params.

(** Euler with step 1/2, and with step 5. *)
Definition euler_half : @solver_t Qc_Number := euler 100 (Q2Qc 0.5).
Definition euler_five : @solver_t Qc_Number := euler 100 (Q2Qc 5).

(** The same table with another push and another friction. *)
Definition params_other : @Params.t Qc_Number :=
  Params.mk (Q2Qc 0.5) (Q2Qc 7) (Q2Qc 0.4) (Q2Qc 0.3)
            (Q2Qc 7) (Q2Qc 9) (Q2Qc 0.5) (Q2Qc 20).



(** A frame read back as plain fractions. *)
Definition plain (tf : @TimeFrame Qc_Number) : list (Q * (Q * Q)) :=
  map (fun r => (this (fst r),
                 (this (State.theta (snd r)), this (State.omega (snd r))))) tf.

Definition plain_result (r : result (@TimeFrame Qc_Number))
  : option (list (Q * (Q * Q))) :=
  match r with
  | Return tf => Some (plain tf)
  | Raise _ => None
  end.

(** ** The cells outside the functions *)

Section TopLevel.

Context {Num : Number}.
Local Open Scope num_scope.

(** Modelled from the spec: [tf.first_label()], the time of the first
    sample, [tf.index[0]]. *)
Definition first_label (tf : TimeFrame) : result num :=
  match tf with
  | [] => Raise IndexError
  | (t, _) :: _ => Return t
  end.

(** Modelled from the spec: [tf.first_row()], the first sample,
    [tf.iloc[0]] (cell 63). *)
Definition first_row (tf : TimeFrame) : result State.t :=
  match tf with
  | [] => Raise IndexError
  | (_, row) :: _ => Return row
  end.

(** Cells 10 to 37: the two phases run step by step on the notebook's
    [params], before they are wrapped in [run_two_phases]. *)
Definition cells_10_37 (run_ode_solver : solver_t) (params : Params.t)
  : result Locals :=
  (* cell 10 *)
  let system1 := make_system params in
  (* cell 19 *)
  let '(results1, details1) :=
    run_ode_solver system1 slope_func event_func1 in
  (* cell 23 *)
  label <- last_label results1 ;;
  let t_0 := label * s in
  (* cell 25 *)
  init2 <- last_row results1 ;;
  (* cell 27 *)
  let system2 := System_with system1 t_0 init2 (lit 0 * N) in
  (* cell 33 *)
  let '(results2, details2) :=
    run_ode_solver system2 slope_func event_func2 in
  (* cell 37 *)
  let results := combine_first results1 results2 in
  Return {| l_params := params; l_system1 := system1;
            l_results1 := results1; l_details1 := details1;
            l_t_0 := t_0; l_init2 := init2; l_system2 := system2;
            l_results2 := results2; l_details2 := details2;
            l_results := results |}.

(** *** What an integrator hands to the splice *)

(** Phase 2 takes over where phase 1 stopped: both frames are
    time-ordered and the first label of the second is the last label of
    the first. *)
Definition phases_meet (results1 results2 : TimeFrame) : Prop :=
  time_ordered results1 /\ time_ordered results2 /\
  exists label,
    last_label results1 = Return label /\ first_label results2 = Return label.

(** Phase 2 starts in the state phase 1 stopped in. *)
Definition phases_continuous (results1 results2 : TimeFrame) : Prop :=
  exists row,
    last_row results1 = Return row /\ first_row results2 = Return row.

Definition label_eqb (a b : result num) : bool :=
  match a, b with
  | Return x, Return y => x =? y
  | _, _ => false
  end.

Definition row_eqb (a b : result State.t) : bool :=
  match a, b with
  | Return x, Return y =>
      (State.theta x =? State.theta y) && (State.omega x =? State.omega y)
  | _, _ => false
  end.

Definition phases_meetb (results1 results2 : TimeFrame) : bool :=
  time_orderedb (index results1) && time_orderedb (index results2)
  && label_eqb (last_label results1) (first_label results2).

Definition phases_continuousb (results1 results2 : TimeFrame) : bool :=
  row_eqb (last_row results1) (first_row results2).


End TopLevel.


(** The value of a check on the locals of a run that returned. *)
Definition checked {Num : Number} (check : Locals -> bool)
           (run : result Locals) : bool :=
  match run with
  | Return l => check l
  | Raise _ => false
  end.

(** Closes the case where a run that returns is supposed to raise. *)
Ltac run_raises E :=
  apply (f_equal returns) in E; vm_compute in E; discriminate E.

(** Runs a check on the locals of a run that returned [Return l]. *)
Ltac run_checks E check H :=
  match type of E with
  | ?run = Return _ =>
      assert (H : checked check run = true) by (vm_compute; reflexivity);
      rewrite E in H; cbn [checked] in H
  end.

(** * Properties *)

(** ** Exact rationals obey the laws *)

Lemma Qc_ltb_lt (a b : Qc) : Qc_ltb a b = true <-> (a < b)%Qc.
Proof.
  unfold Qc_ltb, Qclt, Qccompare. rewrite Qlt_alt.
  destruct (a ?= b)%Q; split; intros E; try reflexivity; discriminate E.
Qed.

#[export] Instance Qc_NumberLaws : NumberLaws Qc_Number.
Proof.
  split; cbn [num neqb nltb Qc_Number].
  - intros a b. split.
    + apply Qc_eq_bool_correct.
    + intros ->. unfold Qc_eq_bool. destruct (Qc_eq_dec b b); congruence.
  - intros a. destruct (Qc_ltb a a) eqn:E; [|reflexivity].
    apply Qc_ltb_lt in E. exfalso. exact (Qclt_not_eq a a E eq_refl).
  - intros a b c Hab Hbc. apply Qc_ltb_lt in Hab, Hbc. apply Qc_ltb_lt.
    eapply Qclt_trans; eassumption.
  - intros a b Hab Hba.
    destruct (Qc_dec a b) as [[Hlt | Hgt] | Heq]; [ | | exact Heq].
    + apply Qc_ltb_lt in Hlt. congruence.
    + apply Qc_ltb_lt in Hgt. congruence.
Qed.

(** ** Index order and [combine_first] *)

Section FrameFacts.

Context {Num : Number} {Laws : NumberLaws Num}.
Local Open Scope num_scope.

Lemma neqb_refl (a : num) : (a =? a) = true.
Proof. now apply neqb_eq. Qed.

Lemma neqb_neq (a b : num) : (a =? b) = false <-> a <> b.
Proof.
  destruct (a =? b) eqn:E.
  - apply neqb_eq in E. split; [discriminate | congruence].
  - split; [|reflexivity]. intros _ Hab. apply neqb_eq in Hab. congruence.
Qed.

Lemma in_insert_label (t u : num) (idx : list num) :
  In u (insert_label t idx) <-> u = t \/ In u idx.
Proof.
  induction idx as [|v idx IH]; simpl.
  - intuition.
  - destruct (t <? v) eqn:Htv; [simpl; intuition|].
    destruct (v <? t) eqn:Hvt; simpl.
    + rewrite IH. intuition.
    + pose proof (nltb_total _ _ Htv Hvt) as ->. intuition.
Qed.

Lemma insert_label_sorted (t : num) (idx : list num) :
  StronglySorted before idx -> StronglySorted before (insert_label t idx).
Proof.
  induction 1 as [|v idx Hs IH Hall]; simpl.
  - repeat constructor.
  - destruct (t <? v) eqn:Htv.
    + constructor; [now constructor|].
      constructor; [exact Htv|].
      rewrite Forall_forall in *. intros w Hw.
      eapply nltb_trans; [exact Htv | now apply Hall].
    + destruct (v <? t) eqn:Hvt.
      * constructor; [exact IH|].
        rewrite Forall_forall in *. intros w Hw.
        apply in_insert_label in Hw as [-> | Hw]; [exact Hvt | now apply Hall].
      * now constructor.
Qed.

Lemma union_index_sorted (idx1 idx2 : list num) :
  StronglySorted before (union_index idx1 idx2).
Proof.
  unfold union_index.
  induction (idx1 ++ idx2) as [|t l IH]; simpl.
  - constructor.
  - now apply insert_label_sorted.
Qed.

Lemma in_union_index (t : num) (idx1 idx2 : list num) :
  In t (union_index idx1 idx2) <-> In t idx1 \/ In t idx2.
Proof.
  unfold union_index. rewrite <- in_app_iff.
  induction (idx1 ++ idx2) as [|u l IH]; simpl.
  - tauto.
  - rewrite in_insert_label, IH. intuition.
Qed.

Lemma loc_Some_in (t : num) (tf : TimeFrame) (row : State.t) :
  loc t tf = Some row -> In t (index tf).
Proof.
  induction tf as [|[u r] tf IH]; simpl; [discriminate|].
  destruct (t =? u) eqn:E.
  - apply neqb_eq in E. auto.
  - auto.
Qed.

Lemma loc_None_notin (t : num) (tf : TimeFrame) :
  loc t tf = None <-> ~ In t (index tf).
Proof.
  induction tf as [|[u r] tf IH]; simpl; [tauto|].
  destruct (t =? u) eqn:E.
  - apply neqb_eq in E. split; [discriminate|].
    intros Hn. exfalso. apply Hn. left. congruence.
  - apply neqb_neq in E. rewrite IH. intuition congruence.
Qed.

Lemma in_combine_rows (t : num) (idx : list num) (self other : TimeFrame) :
  In t (index (combine_rows idx self other)) -> In t idx.
Proof.
  induction idx as [|u idx IH]; simpl; [tauto|].
  destruct (combiner (loc u self) (loc u other)); simpl; intuition.
Qed.

Lemma combine_rows_sorted (idx : list num) (self other : TimeFrame) :
  StronglySorted before idx ->
  StronglySorted before (index (combine_rows idx self other)).
Proof.
  induction 1 as [|u idx Hs IH Hall]; simpl; [constructor|].
  destruct (combiner (loc u self) (loc u other)); simpl; [|exact IH].
  constructor; [exact IH|].
  rewrite Forall_forall in *. intros w Hw.
  apply Hall. eapply in_combine_rows; exact Hw.
Qed.

Lemma loc_combine_rows (t : num) (idx : list num) (self other : TimeFrame) :
  In t idx ->
  loc t (combine_rows idx self other) = combiner (loc t self) (loc t other).
Proof.
  induction idx as [|u idx IH]; simpl; [tauto|].
  intros Hin.
  destruct (combiner (loc u self) (loc u other)) as [row|] eqn:Hc; simpl.
  - destruct (t =? u) eqn:E.
    + apply neqb_eq in E. subst u. now rewrite Hc.
    + apply neqb_neq in E. apply IH. destruct Hin; congruence.
  - destruct Hin as [-> | Hin]; [|now apply IH].
    rewrite Hc.
    destruct (loc t (combine_rows idx self other)) as [row|] eqn:Hl;
      [|reflexivity].
    apply loc_Some_in, in_combine_rows in Hl.
    specialize (IH Hl). congruence.
Qed.

(** Row by row, [combine_first] is the caller's frame completed by the
    other one. *)
Lemma loc_combine_first (t : num) (self other : TimeFrame) :
  loc t (combine_first self other) = combiner (loc t self) (loc t other).
Proof.
  unfold combine_first.
  destruct (in_dec (fun a b : num =>
                      match (neqb a b) as c
                            return neqb a b = c -> {a = b} + {a <> b} with
                      | true => fun E => left (proj1 (neqb_eq a b) E)
                      | false => fun E => right (proj1 (neqb_neq a b) E)
                      end eq_refl)
                   t (union_index (index self) (index other))) as [Hin | Hout].
  - now apply loc_combine_rows.
  - assert (Hnone : loc t (combine_rows
                             (union_index (index self) (index other))
                             self other) = None).
    { apply loc_None_notin. intros Hin. apply Hout.
      eapply in_combine_rows; exact Hin. }
    rewrite Hnone. rewrite in_union_index in Hout.
    assert (H1 : loc t self = None) by (apply loc_None_notin; tauto).
    assert (H2 : loc t other = None) by (apply loc_None_notin; tauto).
    now rewrite H1, H2.
Qed.

Lemma combine_first_time_ordered (self other : TimeFrame) :
  time_ordered (combine_first self other).
Proof.
  unfold time_ordered, combine_first.
  apply combine_rows_sorted, union_index_sorted.
Qed.

Lemma time_orderedb_sound (tf : TimeFrame) :
  time_orderedb (index tf) = true -> time_ordered tf.
Proof.
  unfold time_ordered. induction (index tf) as [|t idx IH]; [constructor|].
  destruct idx as [|u idx'].
  - intros _. repeat constructor.
  - cbn [time_orderedb]. intros H. apply andb_prop in H as [Htu Hrest].
    specialize (IH Hrest). constructor; [exact IH|].
    constructor; [exact Htu|].
    inversion IH as [|? ? _ Hall]; subst.
    eapply Forall_impl; [|exact Hall].
    intros w Hw. eapply nltb_trans; [exact Htu | exact Hw].
Qed.


Lemma last_label_row (tf : TimeFrame) :
  tf <> [] ->
  exists label row, last_label tf = Return label /\ last_row tf = Return row.
Proof.
  induction tf as [|[u r] tf IH]; [congruence|]. intros _.
  destruct tf as [|p tf'].
  - now exists u, r.
  - destruct IH as (label & row & Hl & Hr); [discriminate|].
    exists label, row. split; [exact Hl | exact Hr].
Qed.

End FrameFacts.

(** ** The cells *)

Section Cells.

Context {Num : Number}.
Local Open Scope num_scope.

(** What a successful run of the body of [run_two_phases] has done. *)
Lemma run_two_phases_body_inv (run_ode_solver : solver_t)
      (force torque_friction : num) (params : Params.t) (l : Locals) :
  run_two_phases_body run_ode_solver force torque_friction params = Return l ->
  exists label,
    l_params l = Params_with params force torque_friction /\
    l_system1 l = make_system (l_params l) /\
    run_ode_solver (l_system1 l) slope_func event_func1
    = (l_results1 l, l_details1 l) /\
    last_label (l_results1 l) = Return label /\
    l_t_0 l = label * s /\
    last_row (l_results1 l) = Return (l_init2 l) /\
    l_system2 l = System_with (l_system1 l) (l_t_0 l) (l_init2 l) (lit 0 * N) /\
    run_ode_solver (l_system2 l) slope_func event_func2
    = (l_results2 l, l_details2 l) /\
    l_results l = combine_first (l_results1 l) (l_results2 l).
Proof.
  unfold run_two_phases_body.
  destruct (run_ode_solver _ slope_func event_func1) as [results1 details1] eqn:E1.
  destruct (last_label results1) as [label|e] eqn:Hl; simpl; [|discriminate].
  destruct (last_row results1) as [init2|e] eqn:Hr; simpl; [|discriminate].
  destruct (run_ode_solver _ slope_func event_func2) as [results2 details2] eqn:E2.
  intros [= <-]. exists label. simpl. now repeat split.
Qed.


Lemma run_two_phases_Return (run_ode_solver : solver_t)
      (force torque_friction : num) (params : Params.t) (l : Locals) :
  run_two_phases_body run_ode_solver force torque_friction params = Return l ->
  run_two_phases run_ode_solver force torque_friction params
  = Return (l_results l).
Proof. unfold run_two_phases. now intros ->. Qed.

Lemma Params_with_same_base (p q : Params.t) (force torque_friction : num) :
  same_base p q ->
  Params_with p force torque_friction = Params_with q force torque_friction.
Proof.
  intros (H1 & H2 & H3 & H4 & H5 & H6). unfold Params_with.
  now rewrite H1, H2, H3, H4, H5, H6.
Qed.

Lemma System_with_inertia_ok (system : System.t) (t_0 : num)
      (init : State.t) (force : num) :
  inertia_ok system -> inertia_ok (System_with system t_0 init force).
Proof. unfold inertia_ok, inertia_of. simpl. auto. Qed.

(** The integrator's report does not reach the result. *)
Lemma run_two_phases_with_status (st : status) (run_ode_solver : solver_t)
      (force torque_friction : num) (params : Params.t) :
  run_two_phases (with_status st run_ode_solver) force torque_friction params
  = run_two_phases run_ode_solver force torque_friction params.
Proof.
  unfold run_two_phases, run_two_phases_body, with_status.
  destruct (run_ode_solver _ slope_func event_func1) as [results1 details1].
  cbn [fst].
  destruct (last_label results1) as [label|e]; simpl; [|reflexivity].
  destruct (last_row results1) as [init2|e]; simpl; [|reflexivity].
  now destruct (run_ode_solver _ slope_func event_func2).
Qed.

(** *** Claims *)


(** C2 (amended).  [run_two_phases] never looks at the integrator's
    report: whatever [details1] says -- in particular when phase 1 ran
    to the horizon and the event did not fire -- a phase-1 frame with at
    least one row is followed by phase 2, started from its last row, and
    the splice is returned; an empty phase-1 frame is the one case that
    raises, with [IndexError]. *)
Theorem run_two_phases_proceeds (run_ode_solver : solver_t)
        (force torque_friction : num) (params : Params.t)
        (results1 : TimeFrame) (details1 : Details) :
  run_ode_solver (make_system (Params_with params force torque_friction))
                 slope_func event_func1 = (results1, details1) ->
  (results1 <> [] ->
   exists label init2,
     last_label results1 = Return label /\
     last_row results1 = Return init2 /\
     run_two_phases run_ode_solver force torque_friction params
     = Return (combine_first results1
                 (fst (run_ode_solver
                         (System_with
                            (make_system
                               (Params_with params force torque_friction))
                            (label * s) init2 (lit 0 * N))
                         slope_func event_func2)))) /\
  (results1 = [] ->
   run_two_phases run_ode_solver force torque_friction params
   = Raise IndexError).
Proof.
  intros E1. unfold run_two_phases, run_two_phases_body. rewrite E1. split.
  - intros Hne.
    destruct results1 as [|[u r] rest]; [congruence|].
    destruct (@last_label_row Num ((u, r) :: rest)) as (label & row & Hl & Hr);
      [discriminate|].
    exists label, row. rewrite Hl, Hr. cbn [bind].
    destruct (run_ode_solver _ slope_func event_func2) as [results2 details2].
    now repeat split.
  - intros ->. reflexivity.
Qed.

(** C3.  [slope_func] returns the pair (omega, (r*F - tau_f)/I), read
    from the state and the system alone: the time argument does not
    enter the result. *)
Theorem slope_func_spec (theta omega t : num) (system : System.t) :
  slope_func (State.mk theta omega) t system
  = (omega,
     (Params.radius_disk (System.params system)
      * Params.force (System.params system)
      - Params.torque_friction (System.params system))
     / System.I system)
  /\ forall t', slope_func (State.mk theta omega) t' system
                = slope_func (State.mk theta omega) t system.
Proof. split; reflexivity. Qed.

(** C4.  The phase-1 detector returns theta - theta_end, with
    theta_end read from the system; the phase-2 detector returns
    omega. *)
Theorem event_funcs_spec (theta omega t : num) (system : System.t) :
  event_func1 (State.mk theta omega) t system
  = theta - Params.theta_end (System.params system)
  /\ event_func2 (State.mk theta omega) t system = omega.
Proof. split; reflexivity. Qed.


(** C6.  The system [make_system] builds stores the moment of inertia
    its own mass and radius entries determine, and so do the phase-1
    and the phase-2 system of every run of [run_two_phases]. *)
Theorem systems_inertia_ok (params : Params.t) :
  inertia_ok (make_system params) /\
  forall (run_ode_solver : solver_t) (force torque_friction : num)
         (l : Locals),
    run_two_phases_body run_ode_solver force torque_friction params
    = Return l ->
    inertia_ok (l_system1 l) /\ inertia_ok (l_system2 l).
Proof.
  split; [reflexivity|].
  intros solver force torque_friction l Hrun.
  pose proof (run_two_phases_body_inv _ _ _ _ Hrun)
    as (label & _ & Hs1 & _ & _ & _ & _ & Hs2 & _ & _).
  assert (H1 : inertia_ok (l_system1 l)) by (rewrite Hs1; reflexivity).
  split; [exact H1|]. rewrite Hs2. now apply System_with_inertia_ok.
Qed.

(** C7.  [make_system] returns a system whose initial state is
    theta = 0 radian, omega = 0 radian/s, and the phase-1 integration of
    [run_two_phases] is the integrator's run on such a system, made from
    the configuration with the two overrides and without start time. *)
Theorem phase1_starts_at_rest (params : Params.t) :
  System.init (make_system params) = at_rest /\
  forall (run_ode_solver : solver_t) (force torque_friction : num)
         (l : Locals),
    run_two_phases_body run_ode_solver force torque_friction params
    = Return l ->
    l_system1 l = make_system (Params_with params force torque_friction) /\
    System.init (l_system1 l) = at_rest /\
    System.t_0 (l_system1 l) = None /\
    run_ode_solver (l_system1 l) slope_func event_func1
    = (l_results1 l, l_details1 l).
Proof.
  split; [reflexivity|].
  intros solver force torque_friction l Hrun.
  pose proof (run_two_phases_body_inv _ _ _ _ Hrun)
    as (label & Hp & Hs1 & E1 & _).
  rewrite <- Hp, <- Hs1. repeat split; try exact E1; now rewrite Hs1.
Qed.

(** C8.  [error_func1] returns the final angle of the two-phase run
    with force 1 newton and the guessed friction torque, minus 1.5
    radian (and prints the guess and that angle); it returns a value
    exactly when that run returns a frame. *)
Theorem error_func1_spec (run_ode_solver : solver_t)
        (torque_friction : num) (params : Params.t)
        (value : num) (printed : list (num * num)) :
  error_func1 run_ode_solver torque_friction params = Return (value, printed)
  <->
  exists results row,
    run_two_phases run_ode_solver (lit 1 * N) torque_friction params
    = Return results /\
    last_row results = Return row /\
    value = State.theta row - lit 1.5 * radian /\
    printed = [(torque_friction, State.theta row)].
Proof.
  unfold error_func1.
  destruct (run_two_phases _ _ _ _) as [results|e]; simpl.
  - destruct (last_row results) as [row|e] eqn:Hr; simpl.
    + split.
      * intros [= <- <-]. exists results, row. now repeat split.
      * intros (results' & row' & [= <-] & Hr' & -> & ->).
        rewrite Hr in Hr'. now injection Hr' as <-.
    + split; [discriminate|].
      intros (results' & row' & [= <-] & Hr' & _). congruence.
  - split; [discriminate|]. intros (? & ? & ? & _). discriminate.
Qed.


(** C10.  The [force] and [torque_friction] entries of the
    configuration passed in do not reach the result: on two
    configurations that agree on every other entry, [run_two_phases]
    returns the same, and so does [error_func1]. *)
Theorem base_force_friction_ignored (run_ode_solver : solver_t)
        (force torque_friction : num) (p q : Params.t) :
  same_base p q ->
  run_two_phases run_ode_solver force torque_friction p
  = run_two_phases run_ode_solver force torque_friction q
  /\ error_func1 run_ode_solver torque_friction p
     = error_func1 run_ode_solver torque_friction q.
Proof.
  intros Hpq.
  assert (Hrun : forall f tf,
             run_two_phases run_ode_solver f tf p
             = run_two_phases run_ode_solver f tf q).
  { intros f tf. unfold run_two_phases, run_two_phases_body.
    now rewrite (Params_with_same_base f tf Hpq). }
  split; [apply Hrun|].
  unfold error_func1. now rewrite Hrun.
Qed.

End Cells.

(** ** The cells run on exact rationals *)

Example slope_func_system1 :
  slope_func (System.init system1) (Q2Qc 0) system1 = (Q2Qc 0, Q2Qc (300 # 923)).
Proof. apply injective_projections; apply Qc_is_canon; reflexivity. Qed.

Example event_func1_system1 :
  event_func1 (System.init system1) (Q2Qc 0) system1 = Q2Qc (-1 # 2).
Proof. apply Qc_is_canon. reflexivity. Qed.

Example run_two_phases_reference :
  plain_result (run_two_phases euler_half (Q2Qc 1) (Q2Qc 0.2) params)
  = Some [(0, (0, 0)); (1 # 2, (0, 150 # 923)); (1, (75 # 923, 300 # 923));
          (3 # 2, (225 # 923, 450 # 923)); (2, (450 # 923, 600 # 923));
          (5 # 2, (750 # 923, 750 # 923)); (3, (1125 # 923, 50 # 71));
          (7 # 2, (1450 # 923, 550 # 923)); (4, (1725 # 923, 450 # 923));
          (9 # 2, (150 # 71, 350 # 923)); (5, (2125 # 923, 250 # 923));
          (11 # 2, (2250 # 923, 150 # 923)); (6, (2325 # 923, 50 # 923));
          (13 # 2, (2350 # 923, -50 # 923))]%Q.
Proof. vm_compute. reflexivity. Qed.


(** C2, as stated, fails: with net torque zero (force 1, friction 0.5)
    the turntable never moves, phase 1 runs to the horizon [t_end = 20]
    without the event firing, and [run_two_phases] returns a frame. *)
Lemma phase1_incomplete_returns :
  details_status
    (snd (euler_five
                (make_system (Params_with params (Q2Qc 1) (Q2Qc 0.5)))
                slope_func event_func1)) = ReachedEnd /\
  plain_result
    (run_two_phases euler_five (Q2Qc 1) (Q2Qc 0.5) params)
  = Some [(0, (0, 0)); (5, (0, 0)); (10, (0, 0)); (15, (0, 0));
          (20, (0, 0))]%Q /\
  forall e,
    run_two_phases euler_five (Q2Qc 1) (Q2Qc 0.5) params <> Raise e.
Proof.
  split; [vm_compute; reflexivity|].
  split; [vm_compute; reflexivity|].
  intros e H. apply (f_equal plain_result) in H. vm_compute in H. discriminate H.
Qed.

(** *** Instances of the claims *)


Lemma run_two_phases_proceeds_witness :
  exists results1 details1 label init2,
    euler_five (make_system (Params_with params (Q2Qc 1) (Q2Qc 0.5)))
          slope_func event_func1 = (results1, details1) /\
    details_status details1 = ReachedEnd /\
    last_label results1 = Return label /\
    last_row results1 = Return init2 /\
    exists results,
      run_two_phases euler_five (Q2Qc 1) (Q2Qc 0.5) params
      = Return results.
Proof.
  destruct (euler_five
                  (make_system (Params_with params (Q2Qc 1) (Q2Qc 0.5)))
                  slope_func event_func1) as [results1 details1] eqn:E1.
  assert (Hst : details_status details1 = ReachedEnd).
  { apply (f_equal (fun p => details_status (snd p))) in E1.
    vm_compute in E1. symmetry. exact E1. }
  assert (Hne : results1 <> []).
  { intros ->. apply (f_equal (fun p => length (fst p))) in E1.
    vm_compute in E1. discriminate E1. }
  destruct (proj1 (run_two_phases_proceeds euler_five (Q2Qc 1)
                     (Q2Qc 0.5) params E1) Hne)
    as (label & init2 & Hl & Hr & Hrun).
  exists results1, details1, label, init2.
  repeat split; try assumption. eexists. exact Hrun.
Defined.


Lemma systems_inertia_ok_witness :
  inertia_ok system1 /\
  exists l,
    run_two_phases_body euler_half (Q2Qc 1) (Q2Qc 0.2) params
    = Return l /\
    inertia_ok (l_system1 l) /\ inertia_ok (l_system2 l).
Proof.
  split; [exact (proj1 (systems_inertia_ok params))|].
  destruct (run_two_phases_body euler_half (Q2Qc 1) (Q2Qc 0.2)
                                params) as [l|e] eqn:E; [|run_raises E].
  exists l. split; [reflexivity|].
  exact (proj2 (systems_inertia_ok params) _ _ _ _ E).
Defined.

Lemma phase1_starts_at_rest_witness :
  System.init system1 = at_rest /\
  exists l,
    run_two_phases_body euler_half (Q2Qc 1) (Q2Qc 0.2) params
    = Return l /\
    System.init (l_system1 l) = at_rest.
Proof.
  split; [exact (proj1 (phase1_starts_at_rest params))|].
  destruct (run_two_phases_body euler_half (Q2Qc 1) (Q2Qc 0.2)
                                params) as [l|e] eqn:E; [|run_raises E].
  exists l. split; [reflexivity|].
  exact (proj1 (proj2 (proj2 (phase1_starts_at_rest params) _ _ _ _ E))).
Defined.

Lemma error_func1_spec_witness :
  exists value printed results row,
    error_func1 euler_half (Q2Qc 0.2) params
    = Return (value, printed) /\
    run_two_phases euler_half (lit 1 * N)%num (Q2Qc 0.2) params
    = Return results /\
    last_row results = Return row /\
    value = (State.theta row - lit 1.5 * radian)%num.
Proof.
  destruct (error_func1 euler_half (Q2Qc 0.2) params)
    as [[value printed]|e] eqn:E; [|run_raises E].
  destruct (proj1 (error_func1_spec euler_half (Q2Qc 0.2)
                                    params value printed) E)
    as (results & row & Hrun & Hrow & Hv & _).
  exists value, printed, results, row. now repeat split.
Defined.


Lemma base_force_friction_ignored_witness :
  same_base params params_other /\
  run_two_phases euler_half (Q2Qc 1) (Q2Qc 0.2) params
  = run_two_phases euler_half (Q2Qc 1) (Q2Qc 0.2) params_other.
Proof.
  assert (H : same_base params params_other) by (repeat split; reflexivity).
  split; [exact H|].
  exact (proj1 (base_force_friction_ignored euler_half (Q2Qc 1)
                                            (Q2Qc 0.2) H)).
Defined.

(** * More of the notebook *)

Section Splice.

Context {Num : Number} {Laws : NumberLaws Num}.
Local Open Scope num_scope.

Lemma loc_app (t : num) (a b : TimeFrame) :
  loc t (a ++ b) = combiner (loc t a) (loc t b).
Proof.
  induction a as [|[u r] a IH]; simpl; [reflexivity|].
  destruct (t =? u); [reflexivity | exact IH].
Qed.

Lemma in_index_loc (t : num) (tf : TimeFrame) :
  In t (index tf) <-> exists row, loc t tf = Some row.
Proof.
  split.
  - intros Hin. destruct (loc t tf) as [row|] eqn:E; [now exists row|].
    apply loc_None_notin in E. contradiction.
  - intros [row Hrow]. eapply loc_Some_in; exact Hrow.
Qed.

Lemma StronglySorted_app (a b : list num) :
  StronglySorted before a -> StronglySorted before b ->
  (forall x y, In x a -> In y b -> before x y) ->
  StronglySorted before (a ++ b).
Proof.
  induction 1 as [|x a Ha IH Hall]; intros Hb Hab; simpl; [exact Hb|].
  constructor.
  - apply IH; [exact Hb|]. intros u v Hu Hv. apply Hab; [now right | exact Hv].
  - apply Forall_app. split; [exact Hall|].
    apply Forall_forall. intros y Hy. apply Hab; [now left | exact Hy].
Qed.

Lemma last_label_in (tf : TimeFrame) (label : num) :
  last_label tf = Return label -> In label (index tf).
Proof.
  induction tf as [|[u r] tf IH]; simpl; [discriminate|].
  destruct tf as [|p tf'].
  - intros [= <-]. now left.
  - intros H. right. now apply IH.
Qed.

(** The last label of a time-ordered frame is its greatest. *)
Lemma last_label_greatest (tf : TimeFrame) (label t : num) :
  time_ordered tf -> last_label tf = Return label ->
  In t (index tf) -> t = label \/ before t label.
Proof.
  unfold time_ordered.
  induction tf as [|[u r] tf IH]; simpl; [discriminate|].
  intros Hs Hl Hin. inversion Hs as [|? ? Hs' Hall]; subst.
  destruct tf as [|p tf'].
  - injection Hl as <-. destruct Hin as [<- | []]. now left.
  - destruct Hin as [<- | Hin].
    + right. rewrite Forall_forall in Hall. apply Hall.
      now apply last_label_in.
    + now apply IH.
Qed.

(** A time-ordered frame is determined by its rows. *)
Lemma time_ordered_ext (a b : TimeFrame) :
  time_ordered a -> time_ordered b ->
  (forall t, loc t a = loc t b) -> a = b.
Proof.
  unfold time_ordered. revert b.
  induction a as [|[t1 r1] a IH]; intros [|[t2 r2] b] Ha Hb Hloc.
  - reflexivity.
  - specialize (Hloc t2). simpl in Hloc. rewrite neqb_refl in Hloc.
    discriminate.
  - specialize (Hloc t1). simpl in Hloc. rewrite neqb_refl in Hloc.
    discriminate.
  - simpl in Ha, Hb.
    inversion Ha as [|? ? Ha' Halla]; subst.
    inversion Hb as [|? ? Hb' Hallb]; subst.
    rewrite Forall_forall in Halla, Hallb.
    assert (Hnota : forall t, In t (index a) -> t <> t1).
    { intros t Hin ->. specialize (Halla _ Hin). unfold before in Halla.
      rewrite nltb_irrefl in Halla. discriminate. }
    assert (Hnotb : forall t, In t (index b) -> t <> t2).
    { intros t Hin ->. specialize (Hallb _ Hin). unfold before in Hallb.
      rewrite nltb_irrefl in Hallb. discriminate. }
    assert (Ht : t1 = t2).
    { apply nltb_total.
      - destruct (t1 <? t2) eqn:E; [|reflexivity]. exfalso.
        pose proof (Hloc t1) as H1. simpl in H1. rewrite neqb_refl in H1.
        destruct (t1 =? t2) eqn:E12.
        + apply neqb_eq in E12. subst t2. rewrite nltb_irrefl in E.
          discriminate.
        + symmetry in H1. apply loc_Some_in in H1.
          specialize (Hallb _ H1). unfold before in Hallb.
          pose proof (nltb_trans _ _ _ E Hallb) as Hc.
          rewrite nltb_irrefl in Hc. discriminate.
      - destruct (t2 <? t1) eqn:E; [|reflexivity]. exfalso.
        pose proof (Hloc t2) as H2. simpl in H2. rewrite neqb_refl in H2.
        destruct (t2 =? t1) eqn:E21.
        + apply neqb_eq in E21. subst t2. rewrite nltb_irrefl in E.
          discriminate.
        + apply loc_Some_in in H2.
          specialize (Halla _ H2). unfold before in Halla.
          pose proof (nltb_trans _ _ _ E Halla) as Hc.
          rewrite nltb_irrefl in Hc. discriminate. }
    subst t2.
    assert (Hr : r1 = r2).
    { specialize (Hloc t1). simpl in Hloc. rewrite neqb_refl in Hloc.
      congruence. }
    subst r2. f_equal.
    apply IH; [exact Ha' | exact Hb' |].
    intros t. specialize (Hloc t). simpl in Hloc.
    destruct (t =? t1) eqn:E; [|exact Hloc].
    apply neqb_eq in E. subst t.
    assert (H1 : loc t1 a = None)
      by (apply loc_None_notin; intros Hin; now apply (Hnota _ Hin)).
    assert (H2 : loc t1 b = None)
      by (apply loc_None_notin; intros Hin; now apply (Hnotb _ Hin)).
    congruence.
Qed.

Lemma in_index_combine_first (t : num) (self other : TimeFrame) :
  In t (index (combine_first self other))
  <-> In t (index self) \/ In t (index other).
Proof.
  rewrite !in_index_loc, loc_combine_first.
  destruct (loc t self) as [r1|]; simpl.
  - split; [intros _; left | intros _]; now exists r1.
  - split; [intros H; now right | intros [[r H] | H]; [discriminate | exact H]].
Qed.

Lemma last_row_app (a b : TimeFrame) :
  b <> [] -> last_row (a ++ b) = last_row b.
Proof.
  intros Hb. induction a as [|[u r] a IH]; simpl; [reflexivity|].
  destruct (a ++ b) as [|p rest] eqn:E; [|exact IH].
  apply app_eq_nil in E. tauto.
Qed.

Lemma last_label_app (a b : TimeFrame) :
  b <> [] -> last_label (a ++ b) = last_label b.
Proof.
  intros Hb. induction a as [|[u r] a IH]; simpl; [reflexivity|].
  destruct (a ++ b) as [|p rest] eqn:E; [|exact IH].
  apply app_eq_nil in E. tauto.
Qed.

(** Where the phases meet, the splice is the first frame followed by the
    second without its first row. *)
Lemma combine_first_meet (results1 results2 : TimeFrame) :
  phases_meet results1 results2 ->
  combine_first results1 results2 = results1 ++ tl results2.
Proof.
  intros (H1 & H2 & label & Hl & Hf).
  destruct results2 as [|[u r] rest]; [discriminate|].
  injection Hf as ->. cbn [tl].
  unfold time_ordered in H2. simpl in H2.
  inversion H2 as [|? ? Hrest Hall]; subst. rewrite Forall_forall in Hall.
  apply time_ordered_ext.
  - apply combine_first_time_ordered.
  - unfold time_ordered, index. rewrite map_app.
    apply StronglySorted_app; [exact H1 | exact Hrest |].
    intros x y Hx Hy.
    destruct (last_label_greatest _ H1 Hl Hx) as [-> | Hlt].
    + now apply Hall.
    + exact (nltb_trans _ _ _ Hlt (Hall _ Hy)).
  - intros t. rewrite loc_combine_first, loc_app. simpl.
    destruct (t =? label) eqn:E; [|reflexivity].
    apply neqb_eq in E. subst t.
    apply last_label_in, in_index_loc in Hl. destruct Hl as [row Hrow].
    now rewrite Hrow.
Qed.

(** Where the phases meet in the same state, the splice starts as the
    first frame starts and ends as the second one ends. *)
Lemma combine_first_endpoints (results1 results2 : TimeFrame) :
  phases_meet results1 results2 ->
  phases_continuous results1 results2 ->
  first_label (combine_first results1 results2) = first_label results1 /\
  first_row (combine_first results1 results2) = first_row results1 /\
  last_label (combine_first results1 results2) = last_label results2 /\
  last_row (combine_first results1 results2) = last_row results2.
Proof.
  intros Hmeet (row & Hlr & Hfr).
  rewrite (combine_first_meet Hmeet).
  destruct Hmeet as (_ & _ & label & Hl & Hf).
  destruct results1 as [|[t1 r1] rest1]; [discriminate|].
  split; [reflexivity|]. split; [reflexivity|].
  destruct results2 as [|[t2 r2] rest2]; [discriminate|].
  injection Hf as ->. injection Hfr as ->. cbn [tl].
  destruct rest2 as [|p rest2].
  - rewrite app_nil_r. now rewrite Hl, Hlr.
  - rewrite last_label_app, last_row_app by discriminate. now split.
Qed.

Lemma label_eqb_sound (a b : result num) :
  label_eqb a b = true -> exists label, a = Return label /\ b = Return label.
Proof.
  destruct a as [x|], b as [y|]; simpl; try discriminate.
  intros E. apply neqb_eq in E. subst y. now exists x.
Qed.

Lemma row_eqb_sound (a b : result State.t) :
  row_eqb a b = true -> exists row, a = Return row /\ b = Return row.
Proof.
  destruct a as [[x1 x2]|], b as [[y1 y2]|]; simpl; try discriminate.
  intros E. apply andb_prop in E as [E1 E2].
  apply neqb_eq in E1, E2. subst. now eexists.
Qed.

Lemma phases_meetb_sound (results1 results2 : TimeFrame) :
  phases_meetb results1 results2 = true -> phases_meet results1 results2.
Proof.
  unfold phases_meetb, phases_meet. intros E.
  apply andb_prop in E as [E E3]. apply andb_prop in E as [E1 E2].
  repeat split; try now apply time_orderedb_sound.
  now apply label_eqb_sound.
Qed.

Lemma phases_continuousb_sound (results1 results2 : TimeFrame) :
  phases_continuousb results1 results2 = true ->
  phases_continuous results1 results2.
Proof. apply row_eqb_sound. Qed.

End Splice.

Section MoreCells.

Context {Num : Number} {Laws : NumberLaws Num}.
Local Open Scope num_scope.


Lemma run_two_phases_results (run_ode_solver : solver_t)
      (force torque_friction : num) (params : Params.t) (l : Locals) :
  run_two_phases_body run_ode_solver force torque_friction params = Return l ->
  l_results l = combine_first (l_results1 l) (l_results2 l).
Proof.
  intros Hrun.
  now destruct (run_two_phases_body_inv _ _ _ _ Hrun)
    as (label & _ & _ & _ & _ & _ & _ & _ & _ & Hres).
Qed.

(** X1.  The timestamps of the frame [run_two_phases] returns are those
    of phase 1 together with those of phase 2: none is lost and none is
    made up. *)
Theorem splice_timestamps (run_ode_solver : solver_t)
        (force torque_friction : num) (params : Params.t) (l : Locals) :
  run_two_phases_body run_ode_solver force torque_friction params = Return l ->
  forall t,
    In t (index (l_results l))
    <-> In t (index (l_results1 l)) \/ In t (index (l_results2 l)).
Proof.
  intros Hrun t. rewrite (run_two_phases_results _ _ _ _ Hrun).
  apply in_index_combine_first.
Qed.

(** X2.  When phase 2 takes over at the last timestamp of phase 1, the
    frame [run_two_phases] returns is the phase-1 frame followed by the
    phase-2 frame without its first row: the sample the two phases share
    is kept once, and the result has one row less than the two frames
    together. *)
Theorem splice_concatenates (run_ode_solver : solver_t)
        (force torque_friction : num) (params : Params.t) (l : Locals) :
  run_two_phases_body run_ode_solver force torque_friction params = Return l ->
  phases_meet (l_results1 l) (l_results2 l) ->
  l_results l = l_results1 l ++ tl (l_results2 l) /\
  S (length (l_results l))
  = (length (l_results1 l) + length (l_results2 l))%nat.
Proof.
  intros Hrun Hmeet. rewrite (run_two_phases_results _ _ _ _ Hrun).
  rewrite (combine_first_meet Hmeet). split; [reflexivity|].
  destruct Hmeet as (_ & _ & label & _ & Hf).
  destruct (l_results2 l) as [|p rest]; [discriminate|].
  rewrite length_app. simpl. lia.
Qed.

(** X3.  When phase 2 takes over at the last timestamp of phase 1 and in
    the state phase 1 stopped in, the frame [run_two_phases] returns
    starts with the first sample of phase 1 and ends with the last
    sample of phase 2. *)
Theorem splice_endpoints (run_ode_solver : solver_t)
        (force torque_friction : num) (params : Params.t) (l : Locals) :
  run_two_phases_body run_ode_solver force torque_friction params = Return l ->
  phases_meet (l_results1 l) (l_results2 l) ->
  phases_continuous (l_results1 l) (l_results2 l) ->
  first_label (l_results l) = first_label (l_results1 l) /\
  first_row (l_results l) = first_row (l_results1 l) /\
  last_label (l_results l) = last_label (l_results2 l) /\
  last_row (l_results l) = last_row (l_results2 l).
Proof.
  intros Hrun Hmeet Hcont. rewrite (run_two_phases_results _ _ _ _ Hrun).
  now apply combine_first_endpoints.
Qed.

(** X4.  Under the same two conditions on the integrator's frames,
    [error_func1] returns the final angle of phase 2 minus 1.5 radian. *)
Theorem error_func1_final_angle (run_ode_solver : solver_t)
        (torque_friction : num) (params : Params.t) (l : Locals) :
  run_two_phases_body run_ode_solver (lit 1 * N) torque_friction params
  = Return l ->
  phases_meet (l_results1 l) (l_results2 l) ->
  phases_continuous (l_results1 l) (l_results2 l) ->
  exists row,
    last_row (l_results2 l) = Return row /\
    error_func1 run_ode_solver torque_friction params
    = Return (State.theta row - lit 1.5 * radian,
              [(torque_friction, State.theta row)]).
Proof.
  intros Hrun Hmeet Hcont.
  destruct (combine_first_endpoints Hmeet Hcont) as (_ & _ & _ & Hlast).
  rewrite <- (run_two_phases_results _ _ _ _ Hrun) in Hlast.
  destruct Hmeet as (_ & _ & label & _ & Hf).
  destruct (last_row (l_results2 l)) as [row|e] eqn:Hrow.
  - exists row. split; [reflexivity|].
    unfold error_func1. rewrite (run_two_phases_Return _ _ _ _ Hrun).
    cbn [bind]. rewrite Hlast. reflexivity.
  - exfalso. destruct (l_results2 l) as [|p rest]; [discriminate|].
    destruct (@last_label_row Num (p :: rest)) as (? & row & _ & Hr);
      [discriminate|].
    congruence.
Qed.


(** X6.  [error_func1] returns a value exactly when the phase-1 frame
    has a row: the spliced frame then has a last row to read the angle
    from.  On an empty phase-1 frame it raises [IndexError]. *)
Theorem error_func1_returns (run_ode_solver : solver_t)
        (torque_friction : num) (params : Params.t)
        (results1 : TimeFrame) (details1 : Details) :
  run_ode_solver
    (make_system (Params_with params (lit 1 * N) torque_friction))
    slope_func event_func1 = (results1, details1) ->
  (results1 <> [] ->
   exists value printed,
     error_func1 run_ode_solver torque_friction params
     = Return (value, printed)) /\
  (results1 = [] ->
   error_func1 run_ode_solver torque_friction params = Raise IndexError).
Proof.
  intros E1. unfold error_func1, run_two_phases, run_two_phases_body.
  rewrite E1. split.
  - intros Hn.
    destruct (last_label_row Hn) as (label & init2 & Hl & Hr).
    rewrite Hl, Hr. cbn [bind].
    destruct (run_ode_solver _ slope_func event_func2) as [results2 details2].
    cbn [bind l_results]. unfold TimeFrame_.
    destruct (last_row (combine_first results1 results2)) as [row|e] eqn:Hrow.
    + cbn [bind]. now eexists _, _.
    + exfalso.
      destruct (combine_first results1 results2) as [|p rest] eqn:Hc.
      * apply last_label_in in Hl.
        assert (Hin : In label (index (combine_first results1 results2)))
          by (apply in_index_combine_first; now left).
        rewrite Hc in Hin. exact Hin.
      * destruct (@last_label_row Num (p :: rest)) as (? & row & _ & Hr');
          [discriminate|].
        congruence.
  - intros ->. reflexivity.
Qed.

(** X7.  Called with the force and the friction torque the
    configuration already holds, [run_two_phases] does what cells 10 to
    37 do step by step on that configuration. *)
Theorem run_two_phases_wraps_cells (run_ode_solver : solver_t)
        (params : Params.t) :
  run_two_phases_body run_ode_solver (Params.force params)
                      (Params.torque_friction params) params
  = cells_10_37 run_ode_solver params
  /\ run_two_phases run_ode_solver (Params.force params)
                    (Params.torque_friction params) params
     = (l <- cells_10_37 run_ode_solver params ;; Return (l_results l)).
Proof.
  assert (H : run_two_phases_body run_ode_solver (Params.force params)
                (Params.torque_friction params) params
              = cells_10_37 run_ode_solver params).
  { unfold run_two_phases_body, cells_10_37, Params_with.
    now destruct params. }
  split; [exact H|]. unfold run_two_phases. now rewrite H.
Qed.


End MoreCells.

(** ** The reference run again *)

Example reference_phases_meet :
  checked (fun l => phases_meetb (l_results1 l) (l_results2 l)
                    && phases_continuousb (l_results1 l) (l_results2 l))
          (run_two_phases_body euler_half (Q2Qc 1) (Q2Qc 0.2) params) = true.
Proof. vm_compute. reflexivity. Qed.

Lemma splice_timestamps_witness :
  exists l,
    run_two_phases_body euler_half (Q2Qc 1) (Q2Qc 0.2) params = Return l /\
    forall t,
      In t (index (l_results l))
      <-> In t (index (l_results1 l)) \/ In t (index (l_results2 l)).
Proof.
  destruct (run_two_phases_body euler_half (Q2Qc 1) (Q2Qc 0.2) params)
    as [l|e] eqn:E; [|run_raises E].
  exists l. split; [reflexivity|].
  exact (splice_timestamps (Laws := Qc_NumberLaws) _ _ _ _ E).
Defined.

Lemma splice_concatenates_witness :
  exists l,
    run_two_phases_body euler_half (Q2Qc 1) (Q2Qc 0.2) params = Return l /\
    phases_meet (l_results1 l) (l_results2 l) /\
    l_results l = l_results1 l ++ tl (l_results2 l).
Proof.
  destruct (run_two_phases_body euler_half (Q2Qc 1) (Q2Qc 0.2) params)
    as [l|e] eqn:E; [|run_raises E].
  run_checks E (fun l : @Locals Qc_Number =>
                  phases_meetb (l_results1 l) (l_results2 l)) Hb.
  pose proof (phases_meetb_sound (Laws := Qc_NumberLaws) _ _ Hb) as Hmeet.
  exists l. split; [reflexivity|]. split; [exact Hmeet|].
  exact (proj1 (splice_concatenates (Laws := Qc_NumberLaws) _ _ _ _ E Hmeet)).
Defined.

Lemma splice_endpoints_witness :
  exists l,
    run_two_phases_body euler_half (Q2Qc 1) (Q2Qc 0.2) params = Return l /\
    phases_meet (l_results1 l) (l_results2 l) /\
    phases_continuous (l_results1 l) (l_results2 l) /\
    last_row (l_results l) = last_row (l_results2 l).
Proof.
  destruct (run_two_phases_body euler_half (Q2Qc 1) (Q2Qc 0.2) params)
    as [l|e] eqn:E; [|run_raises E].
  run_checks E (fun l : @Locals Qc_Number =>
                  phases_meetb (l_results1 l) (l_results2 l)) Hb.
  run_checks E (fun l : @Locals Qc_Number =>
                  phases_continuousb (l_results1 l) (l_results2 l)) Hc.
  pose proof (phases_meetb_sound (Laws := Qc_NumberLaws) _ _ Hb) as Hmeet.
  pose proof (phases_continuousb_sound (Laws := Qc_NumberLaws) _ _ Hc)
    as Hcont.
  exists l. split; [reflexivity|]. split; [exact Hmeet|].
  split; [exact Hcont|].
  exact (proj2 (proj2 (proj2 (splice_endpoints (Laws := Qc_NumberLaws)
                                _ _ _ _ E Hmeet Hcont)))).
Defined.

Lemma error_func1_final_angle_witness :
  exists l row,
    run_two_phases_body euler_half (lit 1 * N)%num (Q2Qc 0.2) params
    = Return l /\
    last_row (l_results2 l) = Return row /\
    error_func1 euler_half (Q2Qc 0.2) params
    = Return ((State.theta row - lit 1.5 * radian)%num,
              [(Q2Qc 0.2, State.theta row)]).
Proof.
  destruct (run_two_phases_body euler_half (lit 1 * N)%num (Q2Qc 0.2) params)
    as [l|e] eqn:E; [|run_raises E].
  run_checks E (fun l : @Locals Qc_Number =>
                  phases_meetb (l_results1 l) (l_results2 l)) Hb.
  run_checks E (fun l : @Locals Qc_Number =>
                  phases_continuousb (l_results1 l) (l_results2 l)) Hc.
  pose proof (phases_meetb_sound (Laws := Qc_NumberLaws) _ _ Hb) as Hmeet.
  pose proof (phases_continuousb_sound (Laws := Qc_NumberLaws) _ _ Hc)
    as Hcont.
  destruct (error_func1_final_angle (Laws := Qc_NumberLaws) _ _ _ E Hmeet Hcont)
    as (row & Hrow & Herr).
  exists l, row. split; [reflexivity|]. split; [exact Hrow | exact Herr].
Defined.


Lemma error_func1_returns_witness :
  exists results1 details1 value printed,
    euler_half (make_system (Params_with params (lit 1 * N)%num (Q2Qc 0.2)))
               slope_func event_func1 = (results1, details1) /\
    results1 <> [] /\
    error_func1 euler_half (Q2Qc 0.2) params = Return (value, printed).
Proof.
  destruct (euler_half
              (make_system (Params_with params (lit 1 * N)%num (Q2Qc 0.2)))
              slope_func event_func1) as [results1 details1] eqn:E1.
  assert (Hne : results1 <> []).
  { intros ->. apply (f_equal (fun p => length (fst p))) in E1.
    vm_compute in E1. discriminate E1. }
  destruct (proj1 (error_func1_returns (Laws := Qc_NumberLaws)
                     euler_half (Q2Qc 0.2) params E1) Hne)
    as (value & printed & Herr).
  exists results1, details1, value, printed. now repeat split.
Defined.


(** ** Signs, in exact arithmetic *)

Section Signs.

Local Open Scope Qc_scope.








End Signs.

Section Dynamics.

Local Open Scope Qc_scope.







End Dynamics.



